(** * zustand-namespaces: the namespacing transform layer of [src/utils.tsx]

    A shallow embedding of the key-prefixing codec, the per-namespace store
    facade, the namespace combinator and the hook factory, followed by the
    properties the specification states about them.

    Modelling choices.
    - A flat JavaScript object (a store state, a namespace state) is a finite
      map from string keys to values, [gmap string V]: two objects are equal
      when they have the same keys with the same values.  [Object.entries] is
      [map_to_list] and [Array.prototype.reduce] is [foldl]; the lemmas on
      the reducers hold for every visiting order of the entries.
    - The object spread [{...a, ...b}] is [spread a b]: the keys of [b] win.
    - Values are abstract ([V], with decidable identity) in the general
      development and are [JsVal] in the concrete examples.
    - A key is a [string]; the template literal [`${p}_${k}`] is
      [p +:+ "_" +:+ k].
    - Store operations are functions on an explicit world: the state of the
      parent store, its listeners, and the state of the subscribers.
    - The store primitive (zustand's vanilla store), [shallow] and the React
      binding are external collaborators, modelled from their contracts. *)

From stdpp Require Import gmap strings list fin_maps pretty.

Set Default Proof Using "Type".
#[local] Set Warnings "-clear-no-such-hyp".

(** * Part I: the embedding *)

(** ** JavaScript string and object primitives *)

(** [s.startsWith(p)] *)
Fixpoint startsWith (p s : string) : bool :=
  match p, s with
  | EmptyString, _ => true
  | String a p', String b s' => if decide (a = b) then startsWith p' s' else false
  | String _ _, EmptyString => false
  end.

(** [s.slice(n)] for a non-negative [n]: the string without its first [n]
    characters, and the empty string when [n] exceeds the length. *)
Fixpoint slice (n : nat) (s : string) : string :=
  match n, s with
  | O, _ => s
  | S n', String _ s' => slice n' s'
  | S _, EmptyString => EmptyString
  end.

(** The separator-terminated token [`${name}_`] that marks the keys of a
    namespace. *)
Definition token (name : string) : string := name +:+ "_".

(** [{...a, ...b}] and [Object.assign({}, a, b)]: every key of [b], and the
    keys of [a] that [b] does not have. *)
Definition spread {V} (a b : gmap string V) : gmap string V := b ∪ a.

(** [{...a, ...b}] where [b] may be [undefined]: spreading [undefined]
    contributes no key. *)
Definition spread_optional {V} (a : gmap string V) (b : option (gmap string V))
  : gmap string V :=
  match b with
  | Some b => spread a b
  | None => a
  end.

(** [for (const key in ks) delete o[key]] *)
Definition delete_keys_of {V} (ks o : gmap string V) : gmap string V :=
  foldl (λ acc kv, delete kv.1 acc) o (map_to_list ks).

(** A truthiness test for an optional boolean argument: [undefined] and
    [false] are falsy. *)
Definition truthy (replace : option bool) : bool :=
  match replace with
  | Some true => true
  | _ => false
  end.

(** Reading the property [key] of a JavaScript array: an element when [key]
    is the canonical decimal form of one of its indices. Other properties of
    an array ([length], the prototype's methods) are not elements. *)
Definition array_get {A} (arr : list A) (key : string) : option A :=
  match list_find (λ i : nat, pretty i = key) (seq 0 (length arr)) with
  | Some (_, i) => arr !! i
  | None => None
  end.

(** Concrete JavaScript values for the examples: primitives, and functions
    identified by a number. *)
Inductive JsVal :=
  | JUndefined
  | JNull
  | JBool (b : bool)
  | JNum (n : Z)
  | JStr (s : string)
  | JFun (id : nat).

#[global] Instance JsVal_eq_dec : EqDecision JsVal.
Proof. solve_decision. Defined.

(** The string a value contributes to a template literal. An integer prints
    in decimal as long as it is a safe integer (at most 2^53 in absolute
    value); larger numbers, which JavaScript rounds and from 1e21 on prints
    in exponent form, and the source text a function prints as, are not
    modelled. *)
Definition template_string (v : JsVal) : option string :=
  match v with
  | JUndefined => Some "undefined"
  | JNull => Some "null"
  | JBool b => Some (if b then "true" else "false")
  | JNum n =>
      if (Z.abs n <=? 9007199254740992)%Z then Some (pretty n) else None
  | JStr s => Some s
  | JFun _ => None
  end.

(** ** PrefixCodec *)

Section Codec.
Context {V : Type}.

(** [getPrefixedObject], utils.tsx lines 105-115. *)
Definition getPrefixedObject (typePrefix : string) (obj : gmap string V)
  : gmap string V :=
  foldl (λ acc '(key, value), <[typePrefix +:+ "_" +:+ key := value]> acc)
        ∅ (map_to_list obj).

(** [getUnprefixedObject], utils.tsx lines 117-130. *)
Definition getUnprefixedObject (typePrefix : string) (obj : gmap string V)
  : gmap string V :=
  foldl (λ acc '(key, value),
           if startsWith (typePrefix +:+ "_") key
           then <[slice (String.length typePrefix + 1) key := value]> acc
           else acc)
        ∅ (map_to_list obj).

(** A reduction step that re-keys an entry: the common shape of the two
    reducers above. [g] gives the new key of an entry, or [None] when the
    entry is skipped. Used to reason about both reducers at once. *)
Definition rekey_step (g : string → option string)
    (acc : gmap string V) (kv : string * V) : gmap string V :=
  match g kv.1 with
  | Some j => <[j := kv.2]> acc
  | None => acc
  end.

(** The restriction of an object to the keys that start with the token of
    [name]: what the specification calls the keys belonging to a namespace. *)
Definition restrict (name : string) (obj : gmap string V) : gmap string V :=
  filter (λ kv, startsWith (token name) kv.1 = true) obj.

End Codec.

(** The re-keying functions of the two reducers. *)
Definition prefix_key (name key : string) : option string :=
  Some (name +:+ "_" +:+ key).

Definition unprefix_key (name key : string) : option string :=
  if startsWith (name +:+ "_") key
  then Some (slice (String.length name + 1) key)
  else None.

(** ** The store contract and the store primitive *)

Section Store.
Context {V : Type} `{!EqDecision V}.
Context {W : Type}.

(** The first argument of [setState]: a partial state, or a function of the
    current state. *)
Inductive Partial :=
  | PValue (o : gmap string V)
  | PFun (f : gmap string V → gmap string V).

(** [typeof state === 'function' ? state(current) : state] *)
Definition resolve (state : Partial) (current : gmap string V) : gmap string V :=
  match state with
  | PValue o => o
  | PFun f => f current
  end.

(** A listener receives the new and the old state; what it does is a change
    of the subscribers' world [W]. *)
Definition Listener : Type := gmap string V → gmap string V → W → W.

(** The [StoreApi] contract, over a world [Σ] that holds the store.
    [subscribe] also returns an unsubscribe handle in the source; the facade
    hands it on unchanged and it is left out here. *)
Record StoreApi (Σ : Type) := {
  getInitialState : Σ → gmap string V;
  getState : Σ → gmap string V;
  setState : Partial → option bool → Σ → Σ;
  subscribe : Listener → Σ → Σ;
}.

(** The world of a store: its current and initial state, its listeners in
    registration order, and the world of the subscribers. *)
Record World := {
  store_state : gmap string V;
  store_initial : gmap string V;
  store_listeners : list Listener;
  client : W;
}.

(** [listeners.forEach((listener) => listener(state, previousState))] *)
Definition notify (new previous : gmap string V) (ls : list Listener) (w : W) : W :=
  foldl (λ w listener, listener new previous w) w ls.

(** Modelled from the spec: the store primitive's [setState] (zustand's
    vanilla store, an external collaborator). The update is resolved against
    the current state; a replacing call installs it as the state, any other
    call shallow-merges it into the current state; the listeners are then
    notified with the new and the previous state. The primitive skips a call
    whose resolved update is the very same object as the current state; the
    facade always hands it a fresh object, so that case is not modelled. *)
Definition store_setState (partial : Partial) (replace : option bool) (σ : World)
  : World :=
  let previousState := store_state σ in
  let nextState := resolve partial previousState in
  let state := if truthy replace then nextState
               else spread previousState nextState in
  {| store_state := state;
     store_initial := store_initial σ;
     store_listeners := store_listeners σ;
     client := notify state previousState (store_listeners σ) (client σ) |}.

(** Modelled from the spec: the store primitive's [subscribe] adds the
    listener after the ones already registered. *)
Definition store_subscribe (listener : Listener) (σ : World) : World :=
  {| store_state := store_state σ;
     store_initial := store_initial σ;
     store_listeners := store_listeners σ ++ [listener];
     client := client σ |}.

(** Modelled from the spec: the store primitive as a [StoreApi]. *)
Definition zustand : StoreApi World :=
  {| getInitialState := store_initial;
     getState := store_state;
     setState := store_setState;
     subscribe := store_subscribe |}.

(** Modelled from the spec: [shallow] of zustand/shallow on two plain
    objects: the same number of keys, and every key of the first is a key of
    the second with an identical value. Identity of values is equality in
    [V]. *)
Definition shallow (objA objB : gmap string V) : bool :=
  bool_decide (size objA = size objB)
  && forallb (λ '(keyA, a),
                match objB !! keyA with
                | Some b => bool_decide (a = b)
                | None => false
                end)
             (map_to_list objA).

End Store.

Arguments Partial : clear implicits.
Arguments Listener : clear implicits.
Arguments StoreApi : clear implicits.
Arguments World : clear implicits.
Arguments getInitialState {V W Σ} _ _.
Arguments getState {V W Σ} _ _.
Arguments setState {V W Σ} _ _ _ _.
Arguments subscribe {V W Σ} _ _ _.

(** ** NamespaceDescriptor and NamespacedFacade *)

Section Facade.
Context {V : Type} `{!EqDecision V}.
Context {W Σ : Type}.

(** A state creator receives [set], [get] and the store api, and returns the
    state object it creates. *)
Definition StateCreator : Type :=
  (Partial V → option bool → Σ → Σ) → (Σ → gmap string V) → StoreApi V W Σ
  → gmap string V.

(** A namespace descriptor: a name and a state creator. *)
Record Namespace := {
  name : string;
  creator : StateCreator;
}.

(** [withFactories], utils.tsx lines 77-89: [Object.assign] returns the api
    it is given, extended with the method [getNamespaceHook]. The method is
    [withFactories_getNamespaceHook] below, a function of the api. *)
Definition withFactories (api : StoreApi V W Σ) : StoreApi V W Σ := api.

(** The function the facade's [setState] hands to the parent's [setState],
    utils.tsx lines 31-53. *)
Definition namespaced_update (namespace : Namespace)
    (state : Partial V) (replace : option bool)
    (currentState : gmap string V) : gmap string V :=
  let unprefixedState := getUnprefixedObject (name namespace) currentState in
  let updatedState := resolve state unprefixedState in
  if truthy replace then
    let prefixedState := getPrefixedObject (name namespace) unprefixedState in
    let newState := delete_keys_of prefixedState currentState in
    spread newState (getPrefixedObject (name namespace) updatedState)
  else getPrefixedObject (name namespace) updatedState.

(** The listener the facade's [subscribe] registers with the parent,
    utils.tsx lines 56-70. *)
Definition namespaced_listener (namespace : Namespace)
    (listener : Listener V W) : Listener V W :=
  λ newState oldState w,
    let newUnprefixedState := getUnprefixedObject (name namespace) newState in
    let oldUnprefixedState := getUnprefixedObject (name namespace) oldState in
    if shallow newUnprefixedState oldUnprefixedState then w
    else listener (getUnprefixedObject (name namespace) newState)
                  (getUnprefixedObject (name namespace) oldState) w.

(** [getNamespacedApi], utils.tsx lines 19-75. The parent's [setState] is
    called with the update function alone: its [replace] argument is
    absent. *)
Definition getNamespacedApi (namespace : Namespace) (api : StoreApi V W Σ)
  : StoreApi V W Σ :=
  let namespacedApi :=
    {| getInitialState := λ σ,
         getUnprefixedObject (name namespace) (getInitialState api σ);
       getState := λ σ,
         getUnprefixedObject (name namespace) (getState api σ);
       setState := λ state replace σ,
         setState api (PFun (namespaced_update namespace state replace)) None σ;
       subscribe := λ listener σ,
         subscribe api (namespaced_listener namespace listener) σ |} in
  withFactories namespacedApi.

(** [transformStateCreatorArgs], utils.tsx lines 91-103. *)
Definition transformStateCreatorArgs (namespace : Namespace)
    (set : Partial V → option bool → Σ → Σ) (get : Σ → gmap string V)
    (originalApi : StoreApi V W Σ)
  : (Partial V → option bool → Σ → Σ) * (Σ → gmap string V) * StoreApi V W Σ :=
  let newApi := getNamespacedApi namespace originalApi in
  (setState newApi, getState newApi, newApi).

(** ** NamespaceCombinator *)

(** [spreadNamespaces], utils.tsx lines 138-148. *)
Definition spreadNamespaces (namespaces : list Namespace)
    (callback : Namespace → gmap string V) : gmap string V :=
  foldl (λ acc namespace, spread acc (callback namespace)) ∅ namespaces.

(** [transformCallback], utils.tsx lines 150-159. *)
Definition transformCallback
    (set : Partial V → option bool → Σ → Σ) (get : Σ → gmap string V)
    (api : StoreApi V W Σ) (namespace : Namespace) : gmap string V :=
  let '(newSet, newGet, newApi) :=
    transformStateCreatorArgs namespace set get api in
  getPrefixedObject (name namespace) (creator namespace newSet newGet newApi).

(** [spreadTransformedNamespaces], utils.tsx lines 161-170. *)
Definition spreadTransformedNamespaces (namespaces : list Namespace)
    (set : Partial V → option bool → Σ → Σ) (get : Σ → gmap string V)
    (api : StoreApi V W Σ) : gmap string V :=
  spreadNamespaces namespaces (transformCallback set get api).

(** [creator?.(set, get, api)]: [undefined] when there is no creator. *)
Definition optional_call (creator : option StateCreator)
    (set : Partial V → option bool → Σ → Σ) (get : Σ → gmap string V)
    (api : StoreApi V W Σ) : option (gmap string V) :=
  match creator with
  | Some c => Some (c set get api)
  | None => None
  end.

(** [namespaced], utils.tsx lines 293-328. *)
Definition namespaced (namespaces : list Namespace)
    (creator : option StateCreator) : StateCreator :=
  λ set get api,
    let apiWithNamespace := withFactories api in
    spread_optional
      (spreadTransformedNamespaces namespaces set get apiWithNamespace)
      (optional_call creator set get apiWithNamespace).

(** ** NamespaceAccessRegistry *)

(** What [getNamespaceHook] returns: a hook that is also a store api. *)
Record BoundNamespace := {
  hook : ∀ R : Type, (gmap string V → R) → Σ → R;
  bound_api : StoreApi V W Σ;
}.

(** Modelled from the spec: the external hook mechanism [useStore(api,
    selector)] yields the selector's value of the api's current state. What
    the React binding requires of successive snapshots (the facade's
    [getState] builds a new object on every call) is outside this model, and
    no property below is stated about the hook's value. *)
Definition useStore (api : StoreApi V W Σ) (R : Type)
    (selector : gmap string V → R) (σ : Σ) : R :=
  selector (getState api σ).

(** [getNamespaceHook], utils.tsx lines 172-183. *)
Definition getNamespaceHook (api : StoreApi V W Σ) (namespace : Namespace)
  : BoundNamespace :=
  let namespaceApi := getNamespacedApi namespace api in
  {| hook := λ R selector, useStore namespaceApi R selector;
     bound_api := namespaceApi |}.

(** What the method [getNamespaceHook] of [withFactories] returns: one
    accessor, or an array of accessors. *)
Inductive HookResult :=
  | OneHook (h : BoundNamespace)
  | HookArray (hs : list BoundNamespace).

(** The method [getNamespaceHook] that [withFactories] attaches to an api,
    utils.tsx lines 81-87. *)
Definition withFactories_getNamespaceHook (api : StoreApi V W Σ)
    (namespaces : list Namespace) : HookResult :=
  match namespaces with
  | [namespace] => OneHook (getNamespaceHook api namespace)
  | _ => HookArray (map (λ namespace, getNamespaceHook api namespace) namespaces)
  end.

(** Reading a property of what the method returns. A lone accessor has the
    api's methods as properties and no accessor among them. *)
Definition result_get (r : HookResult) (key : string) : option BoundNamespace :=
  match r with
  | OneHook _ => None
  | HookArray hs => array_get hs key
  end.

(** ** Standalone transforms *)

(** [toNamespace], utils.tsx lines 191-196. Only the name of the descriptor
    is read. *)
Definition toNamespace (namespace : Namespace) (state : gmap string V)
  : gmap string V :=
  getUnprefixedObject (name namespace) state.

(** [fromNamespace], utils.tsx lines 204-209. Only the name of the
    descriptor is read. *)
Definition fromNamespace (namespace : Namespace) (state : gmap string V)
  : gmap string V :=
  getPrefixedObject (name namespace) state.

(** [partializeNamespace], utils.tsx lines 246-263. [getPartializeFn] may
    give no function for a namespace ([undefined]); the partialized data is
    then absent and [{}] is prefixed in its place. *)
Definition partializeNamespace (state : gmap string V)
    (getPartializeFn : Namespace → option (gmap string V → gmap string V))
    (namespace : Namespace) : gmap string V :=
  let namespaceData := toNamespace namespace state in
  let partializedData :=
    match getPartializeFn namespace with
    | Some fn => Some (fn namespaceData)
    | None => None
    end in
  fromNamespace namespace (default ∅ partializedData).

(** [partializeNamespaces], utils.tsx lines 272-284. *)
Definition partializeNamespaces (state : gmap string V)
    (namespaces : list Namespace)
    (getPartializeFn : Namespace → option (gmap string V → gmap string V))
  : gmap string V :=
  spreadNamespaces namespaces (partializeNamespace state getPartializeFn).

(** ** Definitions that follow the specification's words *)

(** The value the last object of a list binds [k] to: the outcome of a
    shallow merge from left to right, where later keys win. *)
Fixpoint last_binding (k : string) (outs : list (gmap string V)) : option V :=
  match outs with
  | [] => None
  | o :: rest =>
      match last_binding k rest with
      | Some v => Some v
      | None => o !! k
      end
  end.

(** The prefixed creator output of a descriptor, as the combinator's steps
    1 to 3 describe it: the descriptor's creator is given the facade's
    [setState] and [getState] and the facade, and its result is prefixed with
    the descriptor's name. *)
Definition prefixed_output (api : StoreApi V W Σ) (namespace : Namespace)
  : gmap string V :=
  let facade := getNamespacedApi namespace api in
  getPrefixedObject (name namespace)
    (creator namespace (setState facade) (getState facade) facade).

(** A store api whose non-replacing [setState] shallow-merges the resolved
    update into the current state, as the specification describes the
    parent of a facade. *)
Definition merging (api : StoreApi V W Σ) : Prop :=
  ∀ (partial : Partial V) (σ : Σ),
    getState api (setState api partial None σ)
    = spread (getState api σ) (resolve partial (getState api σ)).

End Facade.

Arguments StateCreator : clear implicits.
Arguments Namespace : clear implicits.
Arguments BoundNamespace : clear implicits.
Arguments HookResult : clear implicits.

(** ** Calls that do not respect the declared parameter types *)

(** A descriptor as the JavaScript object it is at run time. *)
Definition descriptor_object (name : string) (creator : nat) : gmap string JsVal :=
  {[ "name" := JStr name; "creator" := JFun creator ]}.

(** [fromNamespace] called with a list of objects as positional arguments.
    The first argument is bound to [namespace] and the second to [state];
    further arguments are ignored. A property that is missing reads as
    [undefined]. [None] when the call throws (a missing argument) or leaves
    the model (a function in the template literal). *)
Definition fromNamespace_call (args : list (gmap string JsVal))
  : option (gmap string JsVal) :=
  match args with
  | namespace :: state :: _ =>
      match template_string (default JUndefined (namespace !! "name")) with
      | Some typePrefix => Some (getPrefixedObject typePrefix state)
      | None => None
      end
  | _ => None
  end.

(** ** Concrete namespaces and worlds for the examples *)

(** A world whose store holds [st], with no listener yet. *)
Definition world_of {V W} (st : gmap string V) (w : W) : World V W :=
  {| store_state := st; store_initial := st; store_listeners := []; client := w |}.

(** A descriptor whose creator returns a fixed state. *)
Definition constant_namespace {V W Σ} (n : string) (st : gmap string V)
  : Namespace V W Σ :=
  {| name := n; creator := λ _ _ _, st |}.

(** A listener that records the arguments of each of its invocations. *)
Definition recording_listener {V}
  : Listener V (list (gmap string V * gmap string V)) :=
  λ newState oldState log, log ++ [(newState, oldState)].

(** Two namespace names are separated when neither name-plus-separator
    token starts with the other: no key can be under both. *)
Definition separated (a b : string) : bool :=
  negb (startsWith (token a) (token b)) && negb (startsWith (token b) (token a)).

(** * Part II: properties *)

(** Closed statements about concrete objects are decided by evaluation. *)
Ltac by_computation := apply (bool_decide_unpack _); vm_compute; exact I.

(** ** Facts about the string primitives *)

Lemma string_app_cons a (p s : string) : String a p +:+ s = String a (p +:+ s).
Proof. reflexivity. Qed.

Lemma startsWith_app p s : startsWith p (p +:+ s) = true.
Proof.
  induction p as [|a p IH]; [done|].
  rewrite string_app_cons. simpl. by rewrite decide_True.
Qed.

Lemma slice_app p s : slice (String.length p) (p +:+ s) = s.
Proof. induction p as [|a p IH]; [done|]. by rewrite string_app_cons. Qed.

Lemma startsWith_split p s :
  startsWith p s = true → s = p +:+ slice (String.length p) s.
Proof.
  revert s. induction p as [|a p IH]; intros [|b s]; simpl; try done.
  case_decide as Hab; [|done]. intros Hs. subst b.
  rewrite string_app_cons. f_equal. by apply IH.
Qed.

Lemma startsWith_spec p s : startsWith p s = true ↔ ∃ r, s = p +:+ r.
Proof.
  split.
  - intros H. eexists. by apply startsWith_split.
  - intros [r ->]. apply startsWith_app.
Qed.

Lemma string_app_assoc (a b c : string) : (a +:+ b) +:+ c = a +:+ b +:+ c.
Proof.
  induction a as [|x a IH]; [done|]. rewrite !string_app_cons. by rewrite IH.
Qed.

Lemma string_app_length (a b : string) :
  String.length (a +:+ b) = String.length a + String.length b.
Proof.
  induction a as [|x a IH]; [done|]. rewrite string_app_cons. simpl.
  by rewrite IH.
Qed.

Lemma startsWith_trans p q s :
  startsWith p q = true → startsWith q s = true → startsWith p s = true.
Proof.
  rewrite !startsWith_spec. intros [r ->] [r' ->]. exists (r +:+ r').
  apply string_app_assoc.
Qed.

Lemma token_length name : String.length (token name) = String.length name + 1.
Proof. unfold token. by rewrite string_app_length. Qed.

Lemma token_app name key : token name +:+ key = name +:+ "_" +:+ key.
Proof. unfold token. apply string_app_assoc. Qed.

Lemma prefix_key_inj name k1 k2 j :
  prefix_key name k1 = Some j → prefix_key name k2 = Some j → k1 = k2.
Proof.
  unfold prefix_key. intros [= <-] [= H].
  rewrite <-!token_app in H. by apply (inj (String.app _)) in H.
Qed.

Lemma unprefix_key_Some name key j :
  unprefix_key name key = Some j ↔ key = name +:+ "_" +:+ j.
Proof.
  unfold unprefix_key. fold (token name). rewrite <-token_length, <-token_app.
  split.
  - destruct (startsWith _ _) eqn:E; [|done]. intros [= <-].
    by apply startsWith_split.
  - intros ->. by rewrite startsWith_app, slice_app.
Qed.

Lemma unprefix_key_inj name k1 k2 j :
  unprefix_key name k1 = Some j → unprefix_key name k2 = Some j → k1 = k2.
Proof. rewrite !unprefix_key_Some. congruence. Qed.

(** ** The codec, independently of the order of the entries *)

Section CodecFacts.
Context {V : Type}.
Implicit Types (acc obj s : gmap string V) (l : list (string * V)).

Lemma foldl_pointwise {A B} (f g : A → B → A) (a : A) (l : list B) :
  (∀ a x, f a x = g a x) → foldl f a l = foldl g a l.
Proof.
  intros Hfg. revert a. induction l as [|x l IH]; intros a; simpl; [done|].
  by rewrite Hfg, IH.
Qed.

(** Re-keying a list of entries with distinct keys by a function that is
    injective where it is defined: the result binds [j] to [v] exactly when
    some entry [(k, v)] is re-keyed to [j]. *)
Lemma rekey_foldl_lookup_Some (g : string → option string) l j v :
  (∀ k1 k2 i, g k1 = Some i → g k2 = Some i → k1 = k2) →
  NoDup l.*1 →
  foldl (rekey_step g) ∅ l !! j = Some v ↔ ∃ k, g k = Some j ∧ (k, v) ∈ l.
Proof.
  intros Hinj. induction l as [|[k0 v0] l IH] using rev_ind; intros Hnd.
  - simpl. rewrite lookup_empty. split; [done|]. intros (k & _ & Hk).
    by apply elem_of_nil in Hk.
  - rewrite fmap_app in Hnd. apply NoDup_app in Hnd as (Hnd & Hfresh & _).
    rewrite foldl_snoc. unfold rekey_step at 1. simpl.
    destruct (g k0) as [j0|] eqn:Hg.
    + rewrite lookup_insert. case_decide as Hj.
      * subst j0. split.
        -- intros [= <-]. exists k0. split; [done|]. set_solver.
        -- intros (k & Hk & Hin). apply elem_of_app in Hin as [Hin|Hin].
           ++ exfalso. assert (k = k0) as -> by eauto.
              apply (Hfresh k0); [|set_solver].
              apply list_elem_of_fmap. by exists (k0, v).
           ++ apply list_elem_of_singleton in Hin. congruence.
      * rewrite IH by done. split.
        -- intros (k & Hk & Hin). exists k. set_solver.
        -- intros (k & Hk & Hin). exists k. split; [done|].
           apply elem_of_app in Hin as [Hin|Hin]; [done|].
           apply list_elem_of_singleton in Hin. congruence.
    + rewrite IH by done. split.
      * intros (k & Hk & Hin). exists k. set_solver.
      * intros (k & Hk & Hin). exists k. split; [done|].
        apply elem_of_app in Hin as [Hin|Hin]; [done|].
        apply list_elem_of_singleton in Hin. congruence.
Qed.

Lemma rekey_entries_lookup_Some (g : string → option string) obj j v :
  (∀ k1 k2 i, g k1 = Some i → g k2 = Some i → k1 = k2) →
  foldl (rekey_step g) ∅ (map_to_list obj) !! j = Some v
  ↔ ∃ k, g k = Some j ∧ obj !! k = Some v.
Proof.
  intros Hinj. rewrite rekey_foldl_lookup_Some;
    [|done|apply NoDup_fst_map_to_list].
  by setoid_rewrite elem_of_map_to_list.
Qed.

Lemma getPrefixedObject_rekey name obj :
  getPrefixedObject name obj
  = foldl (rekey_step (prefix_key name)) ∅ (map_to_list obj).
Proof. apply foldl_pointwise. by intros acc [k v]. Qed.

Lemma getUnprefixedObject_rekey name obj :
  getUnprefixedObject name obj
  = foldl (rekey_step (unprefix_key name)) ∅ (map_to_list obj).
Proof.
  apply foldl_pointwise. intros acc [k v].
  unfold rekey_step, unprefix_key. simpl. by destruct (startsWith _ _).
Qed.

(** The prefixed object binds [j] to [v] exactly when [j] is the prefixed
    form of a key that [obj] binds to [v]. *)
Lemma getPrefixedObject_lookup_Some name obj j v :
  getPrefixedObject name obj !! j = Some v
  ↔ ∃ k, j = name +:+ "_" +:+ k ∧ obj !! k = Some v.
Proof.
  rewrite getPrefixedObject_rekey,
    (rekey_entries_lookup_Some _ _ _ _ (prefix_key_inj name)).
  unfold prefix_key. naive_solver.
Qed.

Lemma getPrefixedObject_lookup name obj k :
  getPrefixedObject name obj !! (name +:+ "_" +:+ k) = obj !! k.
Proof.
  apply option_eq. intros v. rewrite getPrefixedObject_lookup_Some. split.
  - intros (k' & Hk & Hv). rewrite <-!token_app in Hk.
    apply (inj (String.app _)) in Hk. by subst.
  - eauto.
Qed.

Lemma getPrefixedObject_lookup_other name obj j :
  startsWith (token name) j = false → getPrefixedObject name obj !! j = None.
Proof.
  intros Hj. apply eq_None_not_Some. intros [v Hv].
  apply getPrefixedObject_lookup_Some in Hv as (k & -> & _).
  by rewrite <-token_app, startsWith_app in Hj.
Qed.

(** The unprefixed view binds [k] exactly as [obj] binds the prefixed key. *)
Lemma getUnprefixedObject_lookup name obj k :
  getUnprefixedObject name obj !! k = obj !! (name +:+ "_" +:+ k).
Proof.
  apply option_eq. intros v.
  rewrite getUnprefixedObject_rekey,
    (rekey_entries_lookup_Some _ _ _ _ (unprefix_key_inj name)).
  setoid_rewrite unprefix_key_Some. naive_solver.
Qed.

Lemma restrict_lookup name obj j :
  restrict name obj !! j = if startsWith (token name) j then obj !! j else None.
Proof.
  unfold restrict. destruct (startsWith _ _) eqn:E.
  - apply option_eq. intros v. rewrite map_lookup_filter_Some. naive_solver.
  - apply map_lookup_filter_None. right. intros v _. simpl. congruence.
Qed.

Lemma prefix_unprefix name s :
  getPrefixedObject name (getUnprefixedObject name s) = restrict name s.
Proof.
  apply map_eq. intros j. rewrite restrict_lookup.
  destruct (startsWith (token name) j) eqn:E.
  - apply startsWith_split in E. rewrite E, token_app.
    by rewrite getPrefixedObject_lookup, getUnprefixedObject_lookup.
  - by apply getPrefixedObject_lookup_other.
Qed.


Lemma unprefix_prefix name obj :
  getUnprefixedObject name (getPrefixedObject name obj) = obj.
Proof.
  apply map_eq. intros k.
  by rewrite getUnprefixedObject_lookup, getPrefixedObject_lookup.
Qed.


(** C4. Round trip: for every namespace name [n] and every flat object [o],
    [unprefix(n, prefix(n, o))] is [o]. The law needs no assumption on the
    keys of [o]: it holds in particular for the objects whose keys have no
    separator collision with [n]. *)
Theorem unprefix_prefix_roundtrip (n : string) (o : gmap string V) :
  getUnprefixedObject n (getPrefixedObject n o) = o.
Proof. apply unprefix_prefix. Qed.


End CodecFacts.

(** C5. For every object, [unprefix(name, obj)] keeps exactly the keys that
    start with the full name-plus-separator token, stripped of that token,
    with their values, and drops every other key; in particular
    [unprefix("user", {user_name: "A", username: "B"})] is [{name: "A"}]. *)
Theorem unprefix_boundary_exclusion :
  (∀ (V : Type) (name : string) (obj : gmap string V) (k' : string) (v : V),
     getUnprefixedObject name obj !! k' = Some v
     ↔ ∃ k, startsWith (name +:+ "_") k = true
            ∧ k' = slice (String.length name + 1) k
            ∧ obj !! k = Some v)
  ∧ getUnprefixedObject "user"
      ({[ "user_name" := JStr "A"; "username" := JStr "B" ]} : gmap string JsVal)
    = {[ "name" := JStr "A" ]}.
Proof.
  split.
  - intros V name obj k' v. rewrite getUnprefixedObject_lookup. split.
    + intros Hv. exists (name +:+ "_" +:+ k'). split_and!; [|symmetry|done].
      * rewrite <-token_app. apply startsWith_app.
      * rewrite <-token_length, <-token_app. apply slice_app.
    + intros (k & Hk & -> & Hv). fold (token name) in Hk.
      apply startsWith_split in Hk.
      by rewrite <-token_length, <-token_app, <-Hk.
  - by_computation.
Qed.

(** ** Object primitives *)

Section ObjectFacts.
Context {V : Type} `{!EqDecision V}.
Implicit Types (a b o ks : gmap string V).

Lemma spread_lookup a b k :
  spread a b !! k = match b !! k with Some v => Some v | None => a !! k end.
Proof.
  unfold spread. rewrite lookup_union.
  by destruct (b !! k), (a !! k).
Qed.

Lemma spread_empty_l b : spread ∅ b = b.
Proof. unfold spread. apply (right_id_L ∅ (∪)). Qed.

Lemma delete_list_lookup (l : list (string * V)) o k :
  foldl (λ acc kv, delete kv.1 acc) o l !! k
  = if decide (k ∈ l.*1) then None else o !! k.
Proof.
  revert o. induction l as [|[k0 v0] l IH]; intros o.
  - done.
  - cbn [foldl]. rewrite IH, fmap_cons. cbn [fst].
    destruct (decide (k = k0)) as [->|Hne].
    + rewrite lookup_delete_eq, (decide_True _ _ (list_elem_of_here _ _)).
      by case_decide.
    + rewrite lookup_delete_ne by done.
      destruct (decide (k ∈ l.*1)) as [Hin|Hin].
      * by rewrite decide_True by by right.
      * rewrite decide_False; [done|]. by intros [?|?]%elem_of_cons.
Qed.

Lemma delete_keys_of_lookup ks o k :
  delete_keys_of ks o !! k
  = match ks !! k with Some _ => None | None => o !! k end.
Proof.
  unfold delete_keys_of. rewrite delete_list_lookup.
  destruct (ks !! k) as [v|] eqn:E.
  - rewrite decide_True; [done|]. apply list_elem_of_fmap. exists (k, v).
    split; [done|]. by apply elem_of_map_to_list.
  - rewrite decide_False; [done|]. intros ([k' v] & -> & Hin)%list_elem_of_fmap.
    apply elem_of_map_to_list in Hin. simpl in *. congruence.
Qed.

(** [shallow] decides equality of objects: the same keys with identical
    values. *)
Lemma shallow_spec a b : shallow a b = true ↔ a = b.
Proof.
  unfold shallow. rewrite andb_true_iff, bool_decide_eq_true, forallb_forall.
  split.
  - intros [Hsize Hall]. apply map_subseteq_size_eq; [|lia].
    apply map_subseteq_spec. intros k v Hk.
    specialize (Hall (k, v)). simpl in Hall.
    destruct (b !! k) as [v'|].
    + rewrite bool_decide_eq_true in Hall. f_equal. symmetry. apply Hall.
      apply list_elem_of_In. by apply elem_of_map_to_list.
    + exfalso. apply diff_false_true, Hall.
      apply list_elem_of_In. by apply elem_of_map_to_list.
  - intros <-. split; [done|]. intros [k v] Hin%list_elem_of_In.
    apply elem_of_map_to_list in Hin. rewrite Hin. by apply bool_decide_eq_true.
Qed.

Lemma shallow_decide a b : shallow a b = bool_decide (a = b).
Proof.
  destruct (shallow a b) eqn:E.
  - apply shallow_spec in E. by rewrite bool_decide_eq_true_2.
  - rewrite bool_decide_eq_false_2; [done|]. intros Hab.
    apply shallow_spec in Hab. congruence.
Qed.

Lemma last_binding_app k (l1 l2 : list (gmap string V)) :
  last_binding k (l1 ++ l2)
  = match last_binding k l2 with
    | Some v => Some v
    | None => last_binding k l1
    end.
Proof.
  induction l1 as [|o l1 IH]; simpl.
  - by destruct (last_binding k l2).
  - rewrite IH. by destruct (last_binding k l2).
Qed.

End ObjectFacts.

Lemma startsWith_comparable p q s :
  startsWith p s = true → startsWith q s = true →
  startsWith p q = true ∨ startsWith q p = true.
Proof.
  revert q s. induction p as [|a p IH]; intros [|b q] [|c s]; simpl; auto.
  - done.
  - destruct (decide (a = c)) as [->|]; [|done].
    destruct (decide (b = c)) as [->|]; [|done].
    rewrite !decide_True by done. eauto.
Qed.

(** ** The facade over the store primitive *)

Section FacadeFacts.
Context {V : Type} `{!EqDecision V}.
Context {W : Type}.
Implicit Types (ns : Namespace V W (World V W)) (σ : World V W).
Implicit Types (p : Partial V) (cur : gmap string V).

(** A non-replacing facade write hands the parent the prefixed patch. *)
Lemma namespaced_update_merge ns p replace cur :
  truthy replace = false →
  namespaced_update ns p replace cur
  = getPrefixedObject (name ns)
      (resolve p (getUnprefixedObject (name ns) cur)).
Proof. unfold namespaced_update. by intros ->. Qed.

(** The object a replacing facade write computes: the prefixed update on the
    keys of the namespace, the current state elsewhere. *)
Lemma namespaced_update_replace_lookup ns p cur j :
  namespaced_update ns p (Some true) cur !! j
  = if startsWith (token (name ns)) j
    then getPrefixedObject (name ns)
           (resolve p (getUnprefixedObject (name ns) cur)) !! j
    else cur !! j.
Proof.
  unfold namespaced_update. simpl.
  rewrite spread_lookup, delete_keys_of_lookup, prefix_unprefix, restrict_lookup.
  destruct (startsWith (token (name ns)) j) eqn:E.
  - destruct (getPrefixedObject _ _ !! j); [done|]. by destruct (cur !! j).
  - by rewrite getPrefixedObject_lookup_other.
Qed.

(** That object has, on the keys of the namespace, exactly the prefixed
    update: a replacing parent write of it would drop the stale keys. *)
Lemma namespaced_update_replace_restrict ns p cur :
  restrict (name ns) (namespaced_update ns p (Some true) cur)
  = getPrefixedObject (name ns)
      (resolve p (getUnprefixedObject (name ns) cur)).
Proof.
  apply map_eq. intros j.
  rewrite restrict_lookup, namespaced_update_replace_lookup.
  destruct (startsWith (token (name ns)) j) eqn:E; [done|].
  by rewrite getPrefixedObject_lookup_other.
Qed.

(** Every facade write reaches the store primitive as a call without a
    [replace] argument, whatever the facade was given. *)
Lemma facade_setState_forwarded ns p replace σ :
  setState (getNamespacedApi ns zustand) p replace σ
  = store_setState (PFun (namespaced_update ns p replace)) None σ.
Proof. reflexivity. Qed.

Lemma facade_setState_state ns p replace σ :
  store_state (setState (getNamespacedApi ns zustand) p replace σ)
  = spread (store_state σ) (namespaced_update ns p replace (store_state σ)).
Proof. reflexivity. Qed.

(** After a replacing facade write the store holds the prefixed update
    merged over the previous state: a key of the namespace that the update
    does not have keeps its previous value. *)
Lemma facade_replace_state_lookup ns p σ j :
  store_state (setState (getNamespacedApi ns zustand) p (Some true) σ) !! j
  = match getPrefixedObject (name ns)
            (resolve p (getUnprefixedObject (name ns) (store_state σ))) !! j with
    | Some v => Some v
    | None => store_state σ !! j
    end.
Proof.
  rewrite facade_setState_state, spread_lookup, namespaced_update_replace_lookup.
  destruct (startsWith (token (name ns)) j) eqn:E.
  - done.
  - rewrite getPrefixedObject_lookup_other by done. by destruct (store_state σ !! j).
Qed.

(** C6, as amended. For every namespace [a] and every non-replace facade
    [setState] call on [a], every key of the parent state that does not start
    with the token of [a] is unchanged after the call; in particular every
    [b_*] key of a namespace [b] is unchanged when neither of the tokens of
    [a] and [b] starts with the other. The patch is prefixed and forwarded as
    a non-replacing parent [setState]. *)
Theorem facade_merge_write_isolation ns p replace σ :
  truthy replace = false →
  let σ' := setState (getNamespacedApi ns zustand) p replace σ in
  (∀ k, startsWith (token (name ns)) k = false →
        store_state σ' !! k = store_state σ !! k)
  ∧ (∀ b k, startsWith (token (name ns)) (token b) = false →
            startsWith (token b) (token (name ns)) = false →
            startsWith (token b) k = true →
            store_state σ' !! k = store_state σ !! k)
  ∧ σ' = store_setState
           (PFun (λ cur, getPrefixedObject (name ns)
                           (resolve p (getUnprefixedObject (name ns) cur))))
           None σ.
Proof.
  intros Hr σ'.
  assert (∀ k, startsWith (token (name ns)) k = false →
               store_state σ' !! k = store_state σ !! k) as Hframe.
  { intros k Hk. unfold σ'.
    rewrite facade_setState_state, spread_lookup, namespaced_update_merge by done.
    by rewrite getPrefixedObject_lookup_other. }
  split_and!; [done| |].
  - intros b k Hab Hba Hk. apply Hframe.
    destruct (startsWith (token (name ns)) k) eqn:E; [|done].
    destruct (startsWith_comparable _ _ _ E Hk); congruence.
  - unfold σ'. rewrite facade_setState_forwarded. unfold store_setState. simpl.
    by rewrite namespaced_update_merge.
Qed.

(** The listener a facade registers runs the subscriber's listener on the
    unprefixed views when they differ, and does nothing when they are
    equal. *)
Lemma namespaced_listener_spec ns (listener : Listener V W) n o w :
  namespaced_listener ns listener n o w
  = if decide (getUnprefixedObject (name ns) n = getUnprefixedObject (name ns) o)
    then w
    else listener (getUnprefixedObject (name ns) n)
                  (getUnprefixedObject (name ns) o) w.
Proof.
  unfold namespaced_listener. rewrite shallow_decide.
  by destruct (decide _) as [Heq|Hne];
    [rewrite bool_decide_eq_true_2|rewrite bool_decide_eq_false_2].
Qed.

Lemma notify_snoc (n o : gmap string V) (ls : list (Listener V W)) l w :
  notify n o (ls ++ [l]) w = l n o (notify n o ls w).
Proof. unfold notify. by rewrite foldl_snoc. Qed.

(** C2. For every listener registered through a facade's [subscribe] and
    every parent notification with new state [n] and old state [o]: after
    the listeners registered before it have run, the listener is not invoked
    when the unprefixed views of [n] and [o] are equal (the same keys with
    identical values, which is what [shallow] decides), and is otherwise
    invoked once, with the new and the old unprefixed view. *)
Theorem facade_subscribe_filters ns (listener : Listener V W) n o σ :
  let σ' := subscribe (getNamespacedApi ns zustand) listener σ in
  let new_view := getUnprefixedObject (name ns) n in
  let old_view := getUnprefixedObject (name ns) o in
  shallow new_view old_view = bool_decide (new_view = old_view)
  ∧ (new_view = old_view ↔ ∀ k, new_view !! k = old_view !! k)
  ∧ notify n o (store_listeners σ') (client σ')
    = (if decide (new_view = old_view) then id else listener new_view old_view)
        (notify n o (store_listeners σ) (client σ)).
Proof.
  simpl. split_and!; [apply shallow_decide|apply map_eq_iff|].
  rewrite notify_snoc, namespaced_listener_spec. by case_decide.
Qed.

End FacadeFacts.

(** ** The combinator *)

Section CombinatorFacts.
Context {V : Type} `{!EqDecision V}.
Context {W Σ : Type}.
Implicit Types (namespaces : list (Namespace V W Σ)) (api : StoreApi V W Σ).
Implicit Types (outs : list (gmap string V)).

Lemma merge_lookup outs k :
  foldl spread ∅ outs !! k = last_binding k outs.
Proof.
  induction outs as [|o outs IH] using rev_ind; [done|].
  rewrite foldl_snoc, spread_lookup, last_binding_app, IH. simpl.
  by destruct (o !! k).
Qed.

Lemma last_binding_is_Some outs k :
  is_Some (last_binding k outs) ↔ ∃ o, o ∈ outs ∧ is_Some (o !! k).
Proof.
  induction outs as [|o outs IH]; simpl.
  - split; [by intros [? ?]|]. intros (o & Ho & _). by apply elem_of_nil in Ho.
  - destruct (last_binding k outs) as [v|] eqn:E.
    + split; [|eauto]. intros _.
      destruct (proj1 IH) as (o' & Ho' & Hk); [eauto|].
      exists o'. split; [by right|done].
    + split.
      * intros Hk. exists o. split; [by left|done].
      * intros (o' & [->|Ho']%elem_of_cons & Hk); [done|].
        exfalso. apply (is_Some_None (A:=V)). apply IH. eauto.
Qed.

Lemma spreadNamespaces_merge namespaces (callback : Namespace V W Σ → gmap string V) :
  spreadNamespaces namespaces callback = foldl spread ∅ (callback <$> namespaces).
Proof.
  unfold spreadNamespaces. generalize (∅ : gmap string V).
  induction namespaces as [|ns namespaces IH]; intros acc; simpl; [done|].
  apply IH.
Qed.

Lemma transformCallback_prefixed_output set get api ns :
  transformCallback set get api ns = prefixed_output api ns.
Proof. reflexivity. Qed.

Lemma spreadTransformedNamespaces_merge namespaces set get api :
  spreadTransformedNamespaces namespaces set get api
  = foldl spread ∅ (prefixed_output api <$> namespaces).
Proof.
  unfold spreadTransformedNamespaces. rewrite spreadNamespaces_merge.
  do 2 f_equal.
Qed.

(** C3. For every ordered list of descriptors and every optional root
    creator, the combined creator produces the shallow merge, from left to
    right in the order of the list, of the prefixed creator outputs of the
    descriptors: a key is bound as the last descriptor output that has it
    binds it (so that descriptors of the same name resolve to the last one,
    key by key). With a root creator [c], the output of [c], called with the
    original [set], [get] and api, is merged last on top: a key of the root
    output is bound as the root output binds it, whatever the descriptors
    bind it to. Without a root creator the result is the merge alone. *)
Theorem namespaced_merge_order namespaces set get api :
  let outs := prefixed_output api <$> namespaces in
  let merged := foldl spread ∅ outs in
  (∀ k, merged !! k = last_binding k outs)
  ∧ (∀ c : StateCreator V W Σ,
       namespaced namespaces (Some c) set get api
       = spread merged (c set get api)
       ∧ ∀ k, namespaced namespaces (Some c) set get api !! k
              = match c set get api !! k with
                | Some v => Some v
                | None => last_binding k outs
                end)
  ∧ namespaced namespaces None set get api = merged.
Proof.
  simpl. split_and!.
  - intros k. apply merge_lookup.
  - intros c. unfold namespaced, withFactories.
    rewrite spreadTransformedNamespaces_merge. simpl. split; [done|].
    intros k. by rewrite spread_lookup, merge_lookup.
  - unfold namespaced, withFactories.
    by rewrite spreadTransformedNamespaces_merge.
Qed.

(** C10. Without a root creator the combined creator returns the merge, from
    left to right, of the prefixed creator outputs of the descriptors, and
    nothing else: its keys are the keys of those outputs. The creator is a
    total function: an absent root creator is not called, and spreading its
    absent result adds no key. *)
Theorem namespaced_without_root namespaces set get api :
  let outs := prefixed_output api <$> namespaces in
  namespaced namespaces None set get api = foldl spread ∅ outs
  ∧ (∀ k, namespaced namespaces None set get api !! k = last_binding k outs)
  ∧ (∀ k, is_Some (namespaced namespaces None set get api !! k)
          ↔ ∃ ns, ns ∈ namespaces ∧ is_Some (prefixed_output api ns !! k)).
Proof.
  simpl. unfold namespaced, withFactories. simpl.
  rewrite spreadTransformedNamespaces_merge. split_and!; [done| |].
  - intros k. apply merge_lookup.
  - intros k. rewrite merge_lookup, last_binding_is_Some. split.
    + intros (o & (ns & -> & Hns)%list_elem_of_fmap & Hk). eauto.
    + intros (ns & Hns & Hk). exists (prefixed_output api ns).
      split; [|done]. apply list_elem_of_fmap. eauto.
Qed.

(** ** The hook factory *)

Lemma array_get_index {A} (arr : list A) (i : nat) :
  i < length arr → array_get arr (pretty i) = arr !! i.
Proof.
  intros Hi. unfold array_get.
  destruct (list_find _ _) as [[j i']|] eqn:E.
  - apply list_find_Some in E as (Hj & Hp & _).
    by apply (inj pretty) in Hp as ->.
  - apply list_find_None in E. exfalso.
    rewrite Forall_forall in E. apply (E i); [|done].
    apply elem_of_seq. lia.
Qed.

Lemma array_get_other {A} (arr : list A) (key : string) :
  (∀ i : nat, i < length arr → key ≠ pretty i) → array_get arr key = None.
Proof.
  intros Hkey. unfold array_get.
  destruct (list_find _ _) as [[j i]|] eqn:E; [|done].
  apply list_find_Some in E as (Hj & Hp & _).
  apply list_elem_of_lookup_2, elem_of_seq in Hj.
  exfalso. apply (Hkey i); [lia|done].
Qed.

Lemma array_get_Some {A} (arr : list A) (key : string) (x : A) :
  array_get arr key = Some x ↔ ∃ i : nat, key = pretty i ∧ arr !! i = Some x.
Proof.
  split.
  - unfold array_get. destruct (list_find _ _) as [[j i]|] eqn:E; [|done].
    apply list_find_Some in E as (_ & Hp & _). intros Hx. by exists i.
  - intros (i & -> & Hx). rewrite array_get_index; [done|].
    by apply lookup_lt_Some in Hx.
Qed.

(** C8, as amended. Given several descriptors, the hook factory returns an
    array with one accessor per descriptor, in the order of the descriptors:
    the accessor at an index is the one built for the descriptor at that
    index. The array is addressable by index and not by namespace name:
    reading it at a key gives an accessor exactly when the key is the decimal
    form of one of its indices, and then the accessor at that index. So a
    key that is not such a decimal, as a namespace name usually is, reads no
    accessor, and a namespace name that is such a decimal reads the accessor
    at that index, whichever descriptor it was built for. *)
Theorem hook_factory_array api namespaces :
  1 < length namespaces →
  ∃ hs, withFactories_getNamespaceHook api namespaces = HookArray hs
    ∧ length hs = length namespaces
    ∧ (∀ i, hs !! i = getNamespaceHook api <$> namespaces !! i)
    ∧ (∀ i : nat, i < length namespaces →
         result_get (HookArray hs) (pretty i)
         = getNamespaceHook api <$> namespaces !! i)
    ∧ (∀ key, (∀ i : nat, i < length namespaces → key ≠ pretty i) →
         result_get (HookArray hs) key = None)
    ∧ (∀ key h, result_get (HookArray hs) key = Some h
                ↔ ∃ i : nat, key = pretty i
                    ∧ getNamespaceHook api <$> namespaces !! i = Some h).
Proof.
  intros Hlen. exists (getNamespaceHook api <$> namespaces). split_and!.
  - by destruct namespaces as [|ns1 [|ns2 rest]]; simpl in *; [lia|lia|].
  - apply length_fmap.
  - intros i. apply list_lookup_fmap.
  - intros i Hi. simpl. rewrite array_get_index by by rewrite length_fmap.
    apply list_lookup_fmap.
  - intros key Hkey. simpl. apply array_get_other.
    by rewrite length_fmap.
  - intros key h. simpl. rewrite array_get_Some.
    by setoid_rewrite list_lookup_fmap.
Qed.

(** ** The standalone transforms *)

Lemma fromNamespace_lookup (ns : Namespace V W Σ) (state : gmap string V) k :
  fromNamespace ns state !! (name ns +:+ "_" +:+ k) = state !! k.
Proof. apply getPrefixedObject_lookup. Qed.

Lemma toNamespace_fromNamespace (ns : Namespace V W Σ) (state : gmap string V) :
  toNamespace ns (fromNamespace ns state) = state.
Proof. apply unprefix_prefix. Qed.

(** Partializing with the identity keeps the keys of the namespace. *)
Lemma partializeNamespace_id (ns : Namespace V W Σ) (state : gmap string V) :
  partializeNamespace state (λ _, Some id) ns = restrict (name ns) state.
Proof. apply prefix_unprefix. Qed.

(** A facade built on a facade reads the keys under both tokens, the outer
    one first. *)
Lemma nested_facade_getState api (outer inner : Namespace V W Σ) (σ : Σ) k :
  getState (getNamespacedApi inner (getNamespacedApi outer api)) σ !! k
  = getState api σ !! (name outer +:+ "_" +:+ name inner +:+ "_" +:+ k).
Proof. simpl. by rewrite !getUnprefixedObject_lookup. Qed.

Lemma getUnprefixedObject_spread n (a b : gmap string V) :
  getUnprefixedObject n (spread a b)
  = spread (getUnprefixedObject n a) (getUnprefixedObject n b).
Proof.
  apply map_eq. intros k.
  by rewrite spread_lookup, !getUnprefixedObject_lookup, spread_lookup.
Qed.

(** A facade on a merging parent is a merging store again, so facades nest.
    This holds for a replacing facade write as well, since no write reaches
    the parent as a replacing one. *)
Lemma facade_merging api (ns : Namespace V W Σ) :
  merging api → merging (getNamespacedApi ns api).
Proof.
  intros Hm p σ. simpl. rewrite Hm. simpl.
  rewrite getUnprefixedObject_spread. f_equal.
  unfold namespaced_update. simpl. apply unprefix_prefix.
Qed.

(** Write isolation on any merging parent: a non-replacing write through a
    facade changes no key outside the token of its namespace. *)
Lemma facade_write_frame api (ns : Namespace V W Σ) p replace σ k :
  merging api → truthy replace = false →
  startsWith (token (name ns)) k = false →
  getState api (setState (getNamespacedApi ns api) p replace σ) !! k
  = getState api σ !! k.
Proof.
  intros Hm Hr Hk. simpl. rewrite Hm, spread_lookup. simpl.
  unfold namespaced_update. rewrite Hr.
  by rewrite getPrefixedObject_lookup_other.
Qed.

End CombinatorFacts.

Lemma zustand_merging {V W} : merging (zustand : StoreApi V W (World V W)).
Proof. by intros p σ. Qed.

(** ** The properties at concrete inputs *)

(** C1. A replacing facade write does not remove the stale keys of the
    namespace. The facade computes the complete replacement object, in which
    the keys of the namespace are exactly the prefixed keys of the update,
    but hands it to the parent without the [replace] argument, and the
    parent merges it into the current state. With the state [{a_x: 1,
    a_y: 2}], the call [setState({x: 9}, true)] on the facade of [a] leaves
    [{a_x: 9, a_y: 2}]. *)
Theorem facade_replace_keeps_stale_key :
  let a : Namespace JsVal unit (World JsVal unit) :=
    constant_namespace "a" {[ "x" := JNum 1; "y" := JNum 2 ]} in
  let σ := world_of {[ "a_x" := JNum 1; "a_y" := JNum 2 ]} tt in
  let facade := getNamespacedApi a zustand in
  let σ' := setState facade (PValue {[ "x" := JNum 9 ]}) (Some true) σ in
  getState facade σ = {[ "x" := JNum 1; "y" := JNum 2 ]}
  ∧ namespaced_update a (PValue {[ "x" := JNum 9 ]}) (Some true) (store_state σ)
    = {[ "a_x" := JNum 9 ]}
  ∧ σ' = store_setState
           (PFun (namespaced_update a (PValue {[ "x" := JNum 9 ]}) (Some true)))
           None σ
  ∧ store_state σ' = {[ "a_x" := JNum 9; "a_y" := JNum 2 ]}
  ∧ restrict "a" (store_state σ') ≠ {[ "a_x" := JNum 9 ]}.
Proof.
  intros a σ facade σ'. split_and!.
  - by_computation.
  - by_computation.
  - reflexivity.
  - by_computation.
  - by_computation.
Qed.

(** C6, the claim as stated fails: the namespaces ["a"] and ["a_b"] are
    distinct, [a_b_x] is a key of ["a_b"], and the non-replace write
    [setState({b_x: 1})] through the facade of ["a"] changes it. *)
Lemma facade_write_reaches_nested_name :
  let a : Namespace JsVal unit (World JsVal unit) := constant_namespace "a" ∅ in
  let σ := world_of {[ "a_b_x" := JNum 0 ]} tt in
  let σ' := setState (getNamespacedApi a zustand)
              (PValue {[ "b_x" := JNum 1 ]}) None σ in
  name a ≠ "a_b"
  ∧ startsWith (token "a_b") "a_b_x" = true
  ∧ store_state σ !! "a_b_x" = Some (JNum 0)
  ∧ store_state σ' !! "a_b_x" = Some (JNum 1).
Proof.
  intros a σ σ'. split_and!.
  - discriminate.
  - reflexivity.
  - by_computation.
  - by_computation.
Qed.

(** C6, the amended claim at a concrete input: a write to ["a"] leaves the
    key [b_y] of ["b"] as it was. *)
Lemma facade_merge_write_isolation_witness :
  let a : Namespace JsVal unit (World JsVal unit) := constant_namespace "a" ∅ in
  let σ := world_of {[ "a_x" := JNum 0; "b_y" := JNum 7 ]} tt in
  let σ' := setState (getNamespacedApi a zustand)
              (PValue {[ "x" := JNum 1 ]}) None σ in
  truthy None = false
  ∧ startsWith (token "b") "b_y" = true
  ∧ store_state σ' !! "b_y" = store_state σ !! "b_y".
Proof.
  intros a σ σ'. split; [reflexivity|]. split; [reflexivity|].
  exact (proj1 (proj2 (facade_merge_write_isolation a
                         (PValue {[ "x" := JNum 1 ]}) None σ eq_refl))
           "b" "b_y" eq_refl eq_refl eq_refl).
Defined.

(** C8, the claim as stated fails: for the descriptors ["user"] and
    ["admin"] the factory returns an array of two accessors, which has the
    indices [0] and [1] and no property named after a namespace. *)
Lemma hook_array_not_addressable_by_name :
  let user : Namespace JsVal unit (World JsVal unit) :=
    constant_namespace "user" {[ "name" := JStr "Alice"; "age" := JNum 25 ]} in
  let admin : Namespace JsVal unit (World JsVal unit) :=
    constant_namespace "admin" {[ "level" := JNum 1 ]} in
  let r := withFactories_getNamespaceHook zustand [user; admin] in
  r = HookArray [getNamespaceHook zustand user; getNamespaceHook zustand admin]
  ∧ result_get r "0" = Some (getNamespaceHook zustand user)
  ∧ result_get r "1" = Some (getNamespaceHook zustand admin)
  ∧ result_get r (name user) = None
  ∧ result_get r (name admin) = None.
Proof.
  intros user admin r.
  assert (∀ key, key ≠ "0" → key ≠ "1" → result_get r key = None) as Hother.
  { intros key H0 H1. apply array_get_other.
    intros [|[|i]] Hi; [done|done|simpl in Hi; lia]. }
  split_and!.
  - reflexivity.
  - change (array_get [getNamespaceHook zustand user; getNamespaceHook zustand admin]
              (pretty 0%nat)
            = [getNamespaceHook zustand user; getNamespaceHook zustand admin] !! 0%nat).
    apply array_get_index. simpl. lia.
  - change (array_get [getNamespaceHook zustand user; getNamespaceHook zustand admin]
              (pretty 1%nat)
            = [getNamespaceHook zustand user; getNamespaceHook zustand admin] !! 1%nat).
    apply array_get_index. simpl. lia.
  - by apply Hother.
  - by apply Hother.
Qed.

(** C8, the amended claim at a concrete input. *)
Lemma hook_factory_array_witness :
  let user : Namespace JsVal unit (World JsVal unit) :=
    constant_namespace "user" {[ "name" := JStr "Alice"; "age" := JNum 25 ]} in
  let admin : Namespace JsVal unit (World JsVal unit) :=
    constant_namespace "admin" {[ "level" := JNum 1 ]} in
  1 < length [user; admin]
  ∧ ∃ hs, withFactories_getNamespaceHook zustand [user; admin] = HookArray hs
      ∧ length hs = 2.
Proof.
  intros user admin. split; [simpl; lia|].
  destruct (hook_factory_array zustand [user; admin]) as (hs & Hr & Hlen & _).
  - simpl. lia.
  - exists hs. split; [exact Hr|exact Hlen].
Defined.

(** Descriptors whose names are decimals: the array read at the name ["1"]
    gives the accessor at index 1, which was built for the descriptor named
    ["0"]. *)
Example index_like_names :
  let one : Namespace JsVal unit (World JsVal unit) := constant_namespace "1" ∅ in
  let zero : Namespace JsVal unit (World JsVal unit) := constant_namespace "0" ∅ in
  let r := withFactories_getNamespaceHook zustand [one; zero] in
  result_get r (name one) = Some (getNamespaceHook zustand zero)
  ∧ result_get r (name zero) = Some (getNamespaceHook zustand one).
Proof.
  intros one zero r. split.
  - change (array_get [getNamespaceHook zustand one; getNamespaceHook zustand zero]
              (pretty 1%nat)
            = [getNamespaceHook zustand one; getNamespaceHook zustand zero] !! 1%nat).
    apply array_get_index. simpl. lia.
  - change (array_get [getNamespaceHook zustand one; getNamespaceHook zustand zero]
              (pretty 0%nat)
            = [getNamespaceHook zustand one; getNamespaceHook zustand zero] !! 0%nat).
    apply array_get_index. simpl. lia.
Qed.


(** C7, the claim as stated fails: called with the state first and two
    descriptors after it, [fromNamespace] takes the state for the descriptor
    and the first descriptor for the state, and ignores the second
    descriptor. *)
Lemma fromNamespace_state_first_call :
  fromNamespace_call
    [ {[ "name" := JStr "Alice"; "age" := JNum 25 ]};
      descriptor_object "admin" 0;
      descriptor_object "user" 1 ]
  = Some {[ "Alice_name" := JStr "admin"; "Alice_creator" := JFun 0 ]}
  ∧ fromNamespace_call
      [ {[ "name" := JStr "Alice"; "age" := JNum 25 ]};
        descriptor_object "admin" 0;
        descriptor_object "user" 1 ]
    ≠ Some {[ "user_admin_name" := JStr "Alice"; "user_admin_age" := JNum 25 ]}.
Proof.
  split; by_computation.
Qed.

(** The call with the declared parameter order, a descriptor and then the
    state, is the typed transform. *)
Lemma fromNamespace_call_typed (n : string) (c : nat) (state : gmap string JsVal) :
  fromNamespace_call [descriptor_object n c; state]
  = Some (getPrefixedObject n state).
Proof. reflexivity. Qed.

(** C7, as amended. [fromNamespace] is a pure transform of one descriptor
    and a state, in that order: it prefixes every key of the state with the
    name of the descriptor and the separator. Nested prefixes come from one
    application per descriptor, the innermost first:
    [fromNamespace(userNs, fromNamespace(subNs, {name: "Alice", age: 25}))]
    is [{user_admin_name: "Alice", user_admin_age: 25}]. *)
Theorem fromNamespace_nested :
  (∀ (V W Σ : Type) (ns : Namespace V W Σ) (state : gmap string V) (j : string) (v : V),
     fromNamespace ns state !! j = Some v
     ↔ ∃ k, j = name ns +:+ "_" +:+ k ∧ state !! k = Some v)
  ∧ (∀ (V W Σ : Type) (inner outer : Namespace V W Σ) (state : gmap string V) k,
       foldl (λ acc ns, fromNamespace ns acc) state [inner; outer]
         !! (name outer +:+ "_" +:+ name inner +:+ "_" +:+ k)
       = state !! k)
  ∧ (let subNs : Namespace JsVal unit unit :=
       constant_namespace "admin" {[ "level" := JNum 1 ]} in
     let userNs : Namespace JsVal unit unit :=
       constant_namespace "user" {[ "name" := JStr "Alice"; "age" := JNum 25 ]} in
     fromNamespace userNs
       (fromNamespace subNs {[ "name" := JStr "Alice"; "age" := JNum 25 ]})
     = {[ "user_admin_name" := JStr "Alice"; "user_admin_age" := JNum 25 ]}).
Proof.
  split_and!.
  - intros V W Σ ns state j v. apply getPrefixedObject_lookup_Some.
  - intros V W Σ inner outer state k. simpl.
    by rewrite !fromNamespace_lookup.
  - by_computation.
Qed.

(** ** The specification's scenarios *)

(** Subscription filtering: a listener subscribed through the facade of
    ["a"] is not invoked when the parent changes a key of ["b"], and is
    invoked once, with the new and the old view of ["a"], when the parent
    changes a key of ["a"]. *)
Example subscription_filtering :
  let a : Namespace JsVal _ (World JsVal _) := constant_namespace "a" ∅ in
  let σ0 := world_of {[ "a_x" := JNum 1; "b_y" := JNum 2 ]} [] in
  let σ1 := subscribe (getNamespacedApi a zustand) recording_listener σ0 in
  let σ2 := setState zustand (PValue {[ "b_y" := JNum 3 ]}) None σ1 in
  let σ3 := setState zustand (PValue {[ "a_x" := JNum 5 ]}) None σ2 in
  client σ2 = []
  ∧ client σ3 = [ ({[ "x" := JNum 5 ]}, {[ "x" := JNum 1 ]}) ].
Proof. intros a σ0 σ1 σ2 σ3. split; by_computation. Qed.

(** Merge order: the namespaces and the root creator of the example store. *)
Example combined_creator :
  let namespace1 : Namespace JsVal unit (World JsVal unit) :=
    constant_namespace "namespace1" {[ "dataInNamespace1" := JStr "data" ]} in
  let namespace2 : Namespace JsVal unit (World JsVal unit) :=
    constant_namespace "namespace2" {[ "dataInNamespace2" := JStr "data" ]} in
  let root : StateCreator JsVal unit (World JsVal unit) :=
    λ _ _ _, {[ "foo" := JStr "bar" ]} in
  namespaced [namespace1; namespace2] (Some root)
    (setState zustand) (getState zustand) zustand
  = {[ "namespace1_dataInNamespace1" := JStr "data";
       "namespace2_dataInNamespace2" := JStr "data";
       "foo" := JStr "bar" ]}.
Proof. intros namespace1 namespace2 root. by_computation. Qed.

(** Two descriptors of the same name: the keys of the later one win, and a
    root key wins over a namespace key of the same literal name. *)
Example duplicate_names_and_root_override :
  let first : Namespace JsVal unit (World JsVal unit) :=
    constant_namespace "a" {[ "x" := JNum 1; "y" := JNum 2 ]} in
  let second : Namespace JsVal unit (World JsVal unit) :=
    constant_namespace "a" {[ "x" := JNum 9 ]} in
  let root : StateCreator JsVal unit (World JsVal unit) :=
    λ _ _ _, {[ "a_y" := JNum 0 ]} in
  namespaced [first; second] None (setState zustand) (getState zustand) zustand
  = {[ "a_x" := JNum 9; "a_y" := JNum 2 ]}
  ∧ namespaced [first; second] (Some root)
      (setState zustand) (getState zustand) zustand
    = {[ "a_x" := JNum 9; "a_y" := JNum 0 ]}.
Proof. intros first second root. split; by_computation. Qed.

(** Facade write isolation: a write to ["a"] leaves the keys of ["b"]. *)
Example write_isolation :
  let a : Namespace JsVal unit (World JsVal unit) := constant_namespace "a" ∅ in
  let σ := world_of {[ "a_x" := JNum 0; "b_x" := JNum 7; "b_y" := JNum 8 ]} tt in
  store_state (setState (getNamespacedApi a zustand)
                 (PValue {[ "x" := JNum 1 ]}) None σ)
  = {[ "a_x" := JNum 1; "b_x" := JNum 7; "b_y" := JNum 8 ]}.
Proof. intros a σ. by_computation. Qed.

(** * Part III: further properties of the code *)

(** ** The codec: shape of the results, composition, merging *)

Section CodecShape.
Context {V : Type}.
Implicit Types (o s a b : gmap string V).

Lemma getPrefixedObject_empty name :
  getPrefixedObject name (∅ : gmap string V) = ∅.
Proof. unfold getPrefixedObject. by rewrite map_to_list_empty. Qed.

Lemma getPrefixedObject_insert name k v o :
  getPrefixedObject name (<[k := v]> o)
  = <[name +:+ "_" +:+ k := v]> (getPrefixedObject name o).
Proof.
  apply map_eq. intros j. destruct (startsWith (token name) j) eqn:E.
  - apply startsWith_split in E. rewrite E, token_app.
    rewrite getPrefixedObject_lookup.
    destruct (decide (k = slice (String.length (token name)) j)) as [->|Hne].
    + by rewrite !lookup_insert_eq.
    + rewrite !lookup_insert_ne, ?getPrefixedObject_lookup; [done| |done].
      rewrite <-!token_app. by intros ?%(inj (String.app _)).
  - rewrite getPrefixedObject_lookup_other by done.
    rewrite lookup_insert_ne, ?getPrefixedObject_lookup_other; [done..|].
    intros <-. by rewrite <-token_app, startsWith_app in E.
Qed.

Lemma getPrefixedObject_size name o :
  size (getPrefixedObject name o) = size o.
Proof.
  induction o as [|k v o Hk IH] using map_ind.
  - by rewrite getPrefixedObject_empty.
  - rewrite getPrefixedObject_insert, !map_size_insert_None, ?IH; [done..|].
    by rewrite getPrefixedObject_lookup.
Qed.

Lemma getUnprefixedObject_empty_iff name o :
  getUnprefixedObject name o = ∅
  ↔ ∀ j, startsWith (token name) j = true → o !! j = None.
Proof.
  split.
  - intros He j Hj. apply startsWith_split in Hj. rewrite Hj, token_app.
    by rewrite <-getUnprefixedObject_lookup, He.
  - intros Hnone. apply map_eq. intros k.
    rewrite getUnprefixedObject_lookup, lookup_empty. apply Hnone.
    rewrite <-token_app. apply startsWith_app.
Qed.

Lemma joined_key (outer inner k : string) :
  (outer +:+ "_" +:+ inner) +:+ "_" +:+ k
  = outer +:+ "_" +:+ inner +:+ "_" +:+ k.
Proof. by rewrite !string_app_assoc. Qed.

Lemma getPrefixedObject_nested outer inner o :
  getPrefixedObject outer (getPrefixedObject inner o)
  = getPrefixedObject (outer +:+ "_" +:+ inner) o.
Proof.
  apply map_eq. intros j. apply option_eq. intros v.
  rewrite !getPrefixedObject_lookup_Some. split.
  - intros (k1 & -> & Hk1). apply getPrefixedObject_lookup_Some in Hk1
      as (k & -> & Hk). exists k. by rewrite joined_key.
  - intros (k & -> & Hk). exists (inner +:+ "_" +:+ k).
    rewrite joined_key. split; [done|]. by rewrite getPrefixedObject_lookup.
Qed.

Lemma getUnprefixedObject_nested outer inner s :
  getUnprefixedObject inner (getUnprefixedObject outer s)
  = getUnprefixedObject (outer +:+ "_" +:+ inner) s.
Proof.
  apply map_eq. intros k.
  by rewrite !getUnprefixedObject_lookup, joined_key.
Qed.

Lemma getPrefixedObject_spread name a b :
  getPrefixedObject name (spread a b)
  = spread (getPrefixedObject name a) (getPrefixedObject name b).
Proof.
  apply map_eq. intros j. rewrite spread_lookup.
  destruct (startsWith (token name) j) eqn:E.
  - apply startsWith_split in E. rewrite E, token_app.
    by rewrite !getPrefixedObject_lookup, spread_lookup.
  - by rewrite !getPrefixedObject_lookup_other.
Qed.

Lemma getUnprefixedObject_spread_codec name a b :
  getUnprefixedObject name (spread a b)
  = spread (getUnprefixedObject name a) (getUnprefixedObject name b).
Proof.
  apply map_eq. intros k.
  by rewrite spread_lookup, !getUnprefixedObject_lookup, spread_lookup.
Qed.

(** A key under the token of [a] is not under the token of [b] when neither
    token starts with the other. *)
Lemma separated_key (a b k : string) :
  startsWith (token a) (token b) = false →
  startsWith (token b) (token a) = false →
  startsWith (token b) (a +:+ "_" +:+ k) = false.
Proof.
  intros Hab Hba.
  destruct (startsWith (token b) (a +:+ "_" +:+ k)) eqn:E; [|done].
  assert (startsWith (token a) (a +:+ "_" +:+ k) = true) as Ha.
  { rewrite <-token_app. apply startsWith_app. }
  destruct (startsWith_comparable _ _ _ Ha E); congruence.
Qed.

(** X1. Prefixing keeps every entry and puts it under the token: the result
    has as many keys as the object, each of them starts with the
    name-plus-separator token, it is empty only for the empty object, and
    two objects with the same prefixed form are equal. *)
Theorem getPrefixedObject_shape (name : string) (o : gmap string V) :
  size (getPrefixedObject name o) = size o
  ∧ (∀ j, is_Some (getPrefixedObject name o !! j)
          → startsWith (name +:+ "_") j = true)
  ∧ (getPrefixedObject name o = ∅ ↔ o = ∅)
  ∧ (∀ o', getPrefixedObject name o = getPrefixedObject name o' → o = o').
Proof.
  split_and!.
  - apply getPrefixedObject_size.
  - intros j [v Hv]. apply getPrefixedObject_lookup_Some in Hv as (k & -> & _).
    fold (token name). rewrite <-token_app. apply startsWith_app.
  - rewrite <-!map_size_empty_iff. by rewrite getPrefixedObject_size.
  - intros o' Heq. apply (f_equal (getUnprefixedObject name)) in Heq.
    by rewrite !unprefix_prefix in Heq.
Qed.

(** X2. Unprefixing never adds entries: the view has exactly as many keys as
    the object has keys under the token, hence at most as many as the
    object, and it is empty exactly when no key of the object starts with the
    token (in particular for the empty object). *)
Theorem getUnprefixedObject_shape (name : string) (o : gmap string V) :
  size (getUnprefixedObject name o) = size (restrict name o)
  ∧ size (getUnprefixedObject name o) ≤ size o
  ∧ (getUnprefixedObject name o = ∅
     ↔ ∀ j, startsWith (name +:+ "_") j = true → o !! j = None)
  ∧ getUnprefixedObject name (∅ : gmap string V) = ∅.
Proof.
  assert (size (getUnprefixedObject name o) = size (restrict name o)) as Hsz.
  { by rewrite <-prefix_unprefix, getPrefixedObject_size. }
  split_and!.
  - done.
  - rewrite Hsz. apply map_size_filter.
  - apply getUnprefixedObject_empty_iff.
  - by apply getUnprefixedObject_empty_iff.
Qed.

(** X3. Prefixing composes: prefixing with [inner] and then with [outer] is
    prefixing once with the joined name [outer_inner], and unprefixing that
    with [outer] alone peels the outer name off. *)
Theorem getPrefixedObject_compose (outer inner : string) (o : gmap string V) :
  getPrefixedObject outer (getPrefixedObject inner o)
  = getPrefixedObject (outer +:+ "_" +:+ inner) o
  ∧ getUnprefixedObject outer (getPrefixedObject (outer +:+ "_" +:+ inner) o)
    = getPrefixedObject inner o.
Proof.
  split; [apply getPrefixedObject_nested|].
  by rewrite <-getPrefixedObject_nested, unprefix_prefix.
Qed.

(** X4. Unprefixing composes: the view under [inner] of the view under
    [outer] is the view under the joined name [outer_inner]; it reads the
    keys [outer_inner_k] of the object and nothing else. *)
Theorem getUnprefixedObject_compose (outer inner : string) (s : gmap string V) :
  getUnprefixedObject inner (getUnprefixedObject outer s)
  = getUnprefixedObject (outer +:+ "_" +:+ inner) s
  ∧ ∀ k, getUnprefixedObject inner (getUnprefixedObject outer s) !! k
         = s !! (outer +:+ "_" +:+ inner +:+ "_" +:+ k).
Proof.
  split; [apply getUnprefixedObject_nested|].
  intros k. by rewrite !getUnprefixedObject_lookup.
Qed.

(** X5. Both directions of the codec commute with the object spread: the
    prefixed (unprefixed) form of [{...a, ...b}] is the spread of the
    prefixed (unprefixed) forms. *)
Theorem codec_commutes_with_spread (name : string) (a b : gmap string V) :
  getPrefixedObject name (spread a b)
  = spread (getPrefixedObject name a) (getPrefixedObject name b)
  ∧ getUnprefixedObject name (spread a b)
    = spread (getUnprefixedObject name a) (getUnprefixedObject name b).
Proof.
  split; [apply getPrefixedObject_spread|apply getUnprefixedObject_spread_codec].
Qed.

(** X6. Namespaces whose tokens do not start with one another do not see
    each other's keys: the view under [b] of an object prefixed with [a] is
    empty. *)
Theorem sibling_view_of_prefixed_is_empty (a b : string) (o : gmap string V) :
  startsWith (token a) (token b) = false →
  startsWith (token b) (token a) = false →
  getUnprefixedObject b (getPrefixedObject a o) = ∅.
Proof.
  intros Hab Hba. apply getUnprefixedObject_empty_iff. intros j Hj.
  apply eq_None_not_Some. intros [v Hv].
  apply getPrefixedObject_lookup_Some in Hv as (k & -> & _).
  by rewrite separated_key in Hj.
Qed.

End CodecShape.

Lemma sibling_view_of_prefixed_is_empty_witness :
  startsWith (token "user") (token "admin") = false
  ∧ startsWith (token "admin") (token "user") = false
  ∧ getUnprefixedObject "admin"
      (getPrefixedObject "user" ({[ "name" := JStr "Alice" ]} : gmap string JsVal))
    = ∅.
Proof.
  split; [reflexivity|]. split; [reflexivity|].
  apply sibling_view_of_prefixed_is_empty; reflexivity.
Defined.

(** ** The facade: reading back, siblings, nesting *)

Section FacadeViews.
Context {V : Type} `{!EqDecision V}.
Context {W Σ : Type}.
Implicit Types (ns a b inner outer : Namespace V W Σ) (api : StoreApi V W Σ).
Implicit Types (p : Partial V) (cur : gmap string V).

(** Whatever [replace] is, the object the facade hands to the parent shows,
    under the namespace, the resolved update. *)
Lemma namespaced_update_view ns p replace cur :
  getUnprefixedObject (name ns) (namespaced_update ns p replace cur)
  = resolve p (getUnprefixedObject (name ns) cur).
Proof.
  unfold namespaced_update. destruct (truthy replace).
  - rewrite getUnprefixedObject_spread_codec, unprefix_prefix.
    replace (getUnprefixedObject (name ns) (delete_keys_of _ cur))
      with (∅ : gmap string V); [apply spread_empty_l|].
    symmetry. apply map_eq. intros k.
    rewrite getUnprefixedObject_lookup, delete_keys_of_lookup, lookup_empty.
    rewrite prefix_unprefix, restrict_lookup, <-token_app, startsWith_app.
    rewrite token_app. by destruct (cur !! _).
  - apply unprefix_prefix.
Qed.

(** Outside the token of the namespace that object has the current state
    when replacing, and nothing when merging. *)
Lemma namespaced_update_outside ns p replace cur j :
  startsWith (token (name ns)) j = false →
  namespaced_update ns p replace cur !! j
  = if truthy replace then cur !! j else None.
Proof.
  intros Hj. unfold namespaced_update. destruct (truthy replace).
  - rewrite spread_lookup, getPrefixedObject_lookup_other by done.
    rewrite delete_keys_of_lookup, prefix_unprefix, restrict_lookup.
    by rewrite Hj.
  - by apply getPrefixedObject_lookup_other.
Qed.

Lemma merged_update_outside ns p replace cur j :
  startsWith (token (name ns)) j = false →
  spread cur (namespaced_update ns p replace cur) !! j = cur !! j.
Proof.
  intros Hj. rewrite spread_lookup, namespaced_update_outside by done.
  destruct (truthy replace); [|done]. by destruct (cur !! j).
Qed.

Lemma sibling_update_view a b p replace cur :
  startsWith (token (name a)) (token (name b)) = false →
  startsWith (token (name b)) (token (name a)) = false →
  getUnprefixedObject (name a) (spread cur (namespaced_update b p replace cur))
  = getUnprefixedObject (name a) cur.
Proof.
  intros Hab Hba. apply map_eq. intros k.
  rewrite !getUnprefixedObject_lookup. apply merged_update_outside.
  by apply separated_key.
Qed.

(** X7. Read your writes: on a parent that merges, after a non-replacing
    write through a facade the facade's [getState] shows the resolved update
    merged into the previous view of the namespace. *)
Theorem facade_read_your_writes api ns p replace (σ : Σ) :
  merging api →
  truthy replace = false →
  let facade := getNamespacedApi ns api in
  let σ' := setState facade p replace σ in
  let view := getState facade σ in
  getState facade σ' = spread view (resolve p view).
Proof.
  intros Hm Hr facade σ' view.
  unfold σ', view, facade. simpl. rewrite Hm. simpl.
  by rewrite getUnprefixedObject_spread_codec, namespaced_update_view.
Qed.

(** X8. A write through the facade of [b], replacing or not, leaves the view
    of a namespace [a] as it was, when neither token starts with the other
    and the parent merges. *)
Theorem sibling_facade_view_unchanged api a b p replace (σ : Σ) :
  merging api →
  startsWith (token (name a)) (token (name b)) = false →
  startsWith (token (name b)) (token (name a)) = false →
  getState (getNamespacedApi a api) (setState (getNamespacedApi b api) p replace σ)
  = getState (getNamespacedApi a api) σ.
Proof.
  intros Hm Hab Hba. simpl. rewrite Hm. simpl.
  by apply sibling_update_view.
Qed.

(** X9. A facade of a facade writes like one facade with the joined name: on
    a parent that merges, a non-replacing write through the facade of [inner]
    built on the facade of [outer] merges into the parent state the update
    prefixed with [outer_inner], resolved against the view under
    [outer_inner]. *)
Theorem nested_facade_write api outer inner p replace (σ : Σ) :
  merging api →
  truthy replace = false →
  let joined := name outer +:+ "_" +:+ name inner in
  let cur := getState api σ in
  getState api
    (setState (getNamespacedApi inner (getNamespacedApi outer api)) p replace σ)
  = spread cur
      (getPrefixedObject joined (resolve p (getUnprefixedObject joined cur))).
Proof.
  intros Hm Hr joined cur. simpl. rewrite Hm. simpl. f_equal.
  unfold namespaced_update at 1. simpl.
  unfold namespaced_update. rewrite Hr.
  by rewrite getPrefixedObject_nested, getUnprefixedObject_nested.
Qed.

End FacadeViews.

Section FacadeNotifications.
Context {V : Type} `{!EqDecision V}.
Context {W : Type}.
Implicit Types (a b ns : Namespace V W (World V W)) (σ : World V W).
Implicit Types (p : Partial V).

(** X10. A listener subscribed through the facade of [a] is not invoked by a
    write through the facade of [b], replacing or not, when neither token
    starts with the other: the subscribers' world ends as it would without
    that subscription. *)
Theorem sibling_write_is_silent a b (listener : Listener V W) p replace σ :
  startsWith (token (name a)) (token (name b)) = false →
  startsWith (token (name b)) (token (name a)) = false →
  let σ1 := subscribe (getNamespacedApi a zustand) listener σ in
  client (setState (getNamespacedApi b zustand) p replace σ1)
  = client (setState (getNamespacedApi b zustand) p replace σ).
Proof.
  intros Hab Hba σ1. simpl. rewrite notify_snoc, namespaced_listener_spec.
  rewrite decide_True; [done|]. by apply sibling_update_view.
Qed.

(** X11. A listener subscribed through a facade and a non-replacing write
    through the same facade: after the listeners registered before it, the
    listener is invoked once with the merged view and the previous view when
    the write changes the view, and is not invoked when the write leaves the
    view as it was. *)
Theorem own_write_notifies_on_change ns (listener : Listener V W) p replace σ :
  truthy replace = false →
  let facade := getNamespacedApi ns zustand in
  let σ1 := subscribe facade listener σ in
  let old_view := getState facade σ in
  let new_view := spread old_view (resolve p old_view) in
  client (setState facade p replace σ1)
  = (if decide (new_view = old_view) then id else listener new_view old_view)
      (client (setState facade p replace σ)).
Proof.
  intros Hr facade σ1 old_view new_view. simpl.
  rewrite notify_snoc, namespaced_listener_spec.
  rewrite getUnprefixedObject_spread_codec, namespaced_update_view.
  unfold new_view, old_view, facade. simpl. by case_decide.
Qed.

End FacadeNotifications.

Lemma facade_read_your_writes_witness :
  let a : Namespace JsVal unit (World JsVal unit) := constant_namespace "a" ∅ in
  let σ := world_of {[ "a_x" := JNum 1; "a_y" := JNum 2 ]} tt in
  let facade := getNamespacedApi a zustand in
  merging (zustand : StoreApi JsVal unit _)
  ∧ truthy None = false
  ∧ getState facade (setState facade (PValue {[ "x" := JNum 5 ]}) None σ)
    = spread (getState facade σ) {[ "x" := JNum 5 ]}.
Proof.
  intros a σ facade. split; [intros p' σ'; reflexivity|].
  split; [reflexivity|].
  exact (facade_read_your_writes zustand a (PValue {[ "x" := JNum 5 ]})
           None σ (λ _ _, eq_refl) eq_refl).
Defined.

Lemma sibling_facade_view_unchanged_witness :
  let a : Namespace JsVal unit (World JsVal unit) := constant_namespace "a" ∅ in
  let b : Namespace JsVal unit (World JsVal unit) := constant_namespace "b" ∅ in
  let σ := world_of {[ "a_x" := JNum 1; "b_y" := JNum 2 ]} tt in
  merging (zustand : StoreApi JsVal unit _)
  ∧ startsWith (token (name a)) (token (name b)) = false
  ∧ startsWith (token (name b)) (token (name a)) = false
  ∧ getState (getNamespacedApi a zustand)
      (setState (getNamespacedApi b zustand) (PValue {[ "y" := JNum 3 ]})
         (Some true) σ)
    = getState (getNamespacedApi a zustand) σ.
Proof.
  intros a b σ. split; [intros p' σ'; reflexivity|].
  split; [reflexivity|]. split; [reflexivity|].
  exact (sibling_facade_view_unchanged zustand a b (PValue {[ "y" := JNum 3 ]})
           (Some true) σ (λ _ _, eq_refl) eq_refl eq_refl).
Defined.

Lemma nested_facade_write_witness :
  let outer : Namespace JsVal unit (World JsVal unit) :=
    constant_namespace "namespace" ∅ in
  let inner : Namespace JsVal unit (World JsVal unit) :=
    constant_namespace "subNamespace" ∅ in
  let σ := world_of {[ "namespace_subNamespace_key" := JStr "value" ]} tt in
  merging (zustand : StoreApi JsVal unit _)
  ∧ truthy None = false
  ∧ getState zustand
      (setState (getNamespacedApi inner (getNamespacedApi outer zustand))
         (PValue {[ "key" := JStr "other" ]}) None σ)
    = spread (getState zustand σ)
        (getPrefixedObject "namespace_subNamespace" {[ "key" := JStr "other" ]}).
Proof.
  intros outer inner σ. split; [intros p' σ'; reflexivity|].
  split; [reflexivity|].
  exact (nested_facade_write zustand outer inner (PValue {[ "key" := JStr "other" ]})
           None σ (λ _ _, eq_refl) eq_refl).
Defined.

Lemma sibling_write_is_silent_witness :
  let a : Namespace JsVal _ (World JsVal _) := constant_namespace "a" ∅ in
  let b : Namespace JsVal _ (World JsVal _) := constant_namespace "b" ∅ in
  let σ := world_of {[ "a_x" := JNum 1; "b_y" := JNum 2 ]} [] in
  let σ1 := subscribe (getNamespacedApi a zustand) recording_listener σ in
  startsWith (token (name a)) (token (name b)) = false
  ∧ startsWith (token (name b)) (token (name a)) = false
  ∧ client (setState (getNamespacedApi b zustand)
              (PValue {[ "y" := JNum 3 ]}) None σ1)
    = client (setState (getNamespacedApi b zustand)
                (PValue {[ "y" := JNum 3 ]}) None σ).
Proof.
  intros a b σ σ1. split; [reflexivity|]. split; [reflexivity|].
  exact (sibling_write_is_silent a b recording_listener
           (PValue {[ "y" := JNum 3 ]}) None σ eq_refl eq_refl).
Defined.

Lemma own_write_notifies_on_change_witness :
  let a : Namespace JsVal _ (World JsVal _) := constant_namespace "a" ∅ in
  let σ := world_of {[ "a_x" := JNum 1 ]} [] in
  let facade := getNamespacedApi a zustand in
  let σ1 := subscribe facade recording_listener σ in
  let old_view := getState facade σ in
  let new_view := spread old_view {[ "x" := JNum 5 ]} in
  truthy None = false
  ∧ client (setState facade (PValue {[ "x" := JNum 5 ]}) None σ1)
    = (if decide (new_view = old_view) then id
       else recording_listener new_view old_view)
        (client (setState facade (PValue {[ "x" := JNum 5 ]}) None σ)).
Proof.
  intros a σ facade σ1 old_view new_view. split; [reflexivity|].
  exact (own_write_notifies_on_change a recording_listener
           (PValue {[ "x" := JNum 5 ]}) None σ eq_refl).
Defined.

(** ** The combinator, the hook factory and the partialize helpers *)

Section CombinatorShape.
Context {V : Type} `{!EqDecision V}.
Context {W Σ : Type}.
Implicit Types (ns : Namespace V W Σ) (namespaces before after : list (Namespace V W Σ)).
Implicit Types (api : StoreApi V W Σ) (outs : list (gmap string V)).

Lemma last_binding_Some outs k v :
  last_binding k outs = Some v → ∃ o, o ∈ outs ∧ o !! k = Some v.
Proof.
  induction outs as [|o outs IH]; simpl; [done|].
  destruct (last_binding k outs) as [v'|] eqn:E.
  - intros [= <-]. destruct IH as (o' & Ho' & Hk); [done|].
    exists o'. split; [by right|done].
  - intros Hk. exists o. split; [by left|done].
Qed.

(** When every object of the list except [o] has no binding for [k], the
    merge binds [k] as [o] does. *)
Lemma last_binding_only outs1 o outs2 k :
  Forall (λ o', o' !! k = None) (outs1 ++ outs2) →
  last_binding k (outs1 ++ o :: outs2) = o !! k.
Proof.
  intros [H1 H2]%Forall_app. rewrite last_binding_app. simpl.
  assert (∀ outs, Forall (λ o', o' !! k = None) outs → last_binding k outs = None)
    as Hnone.
  { clear. intros outs. induction 1 as [|o' outs Ho' _ IH]; simpl; [done|].
    by rewrite IH. }
  rewrite (Hnone outs2 H2). destruct (o !! k); [done|]. by apply Hnone.
Qed.

Lemma namespaced_lookup namespaces (root : option (StateCreator V W Σ))
    set get api k :
  namespaced namespaces root set get api !! k
  = match optional_call root set get api ≫= (.!! k) with
    | Some v => Some v
    | None => last_binding k (prefixed_output api <$> namespaces)
    end.
Proof.
  unfold namespaced, withFactories.
  rewrite spreadTransformedNamespaces_merge.
  destruct root as [c|]; simpl.
  - by rewrite spread_lookup, merge_lookup.
  - apply merge_lookup.
Qed.

Lemma separated_spec (a b : string) :
  separated a b = true
  ↔ startsWith (token a) (token b) = false
    ∧ startsWith (token b) (token a) = false.
Proof.
  unfold separated. rewrite andb_true_iff, !negb_true_iff. done.
Qed.

(** X13. [spreadNamespaces] over a concatenation is the spread of the two
    parts, the second on top; over no namespace it is the empty object and
    over one namespace it is the callback's result. *)
Theorem spreadNamespaces_app before after (callback : Namespace V W Σ → gmap string V) :
  spreadNamespaces (before ++ after) callback
  = spread (spreadNamespaces before callback) (spreadNamespaces after callback)
  ∧ spreadNamespaces [] callback = ∅
  ∧ ∀ ns, spreadNamespaces [ns] callback = callback ns.
Proof.
  split_and!.
  - apply map_eq. intros k.
    rewrite spread_lookup, !spreadNamespaces_merge, !merge_lookup.
    by rewrite fmap_app, last_binding_app.
  - done.
  - intros ns. unfold spreadNamespaces. simpl. apply spread_empty_l.
Qed.

(** X14. A namespace reads back what its creator made: in the combined
    state of a list of descriptors, the view under the name of a descriptor
    is exactly the output of that descriptor's creator, provided the names of
    the other descriptors are separated from its name and the root creator,
    if there is one, makes no key under its token. *)
Theorem namespace_reads_back_its_creation before ns after
    (root : option (StateCreator V W Σ)) set get api :
  forallb (λ ns', separated (name ns) (name ns')) (before ++ after) = true →
  (∀ r, optional_call root set get api = Some r → toNamespace ns r = ∅) →
  let facade := getNamespacedApi ns api in
  toNamespace ns (namespaced (before ++ ns :: after) root set get api)
  = creator ns (setState facade) (getState facade) facade.
Proof.
  intros Hsep Hroot facade. apply map_eq. intros k. unfold toNamespace.
  rewrite getUnprefixedObject_lookup, namespaced_lookup.
  assert (optional_call root set get api ≫= (.!! (name ns +:+ "_" +:+ k)) = None)
    as ->.
  { destruct (optional_call root set get api) as [r|] eqn:Er; [|done]. simpl.
    specialize (Hroot r eq_refl). unfold toNamespace in Hroot.
    by rewrite <-getUnprefixedObject_lookup, Hroot. }
  rewrite fmap_app, fmap_cons, last_binding_only.
  - unfold prefixed_output. by rewrite getPrefixedObject_lookup.
  - rewrite <-fmap_app. apply Forall_fmap, Forall_forall. intros ns' Hns'.
    rewrite forallb_forall in Hsep. apply list_elem_of_In, Hsep in Hns'.
    apply separated_spec in Hns' as [Hab Hba]. simpl.
    apply getPrefixedObject_lookup_other. by apply separated_key.
Qed.

(** X15. A descriptor whose creator is itself a combined creator: the state
    it contributes is the combined state of its sub-descriptors, built on the
    facade of the descriptor and prefixed with its name; for one
    sub-descriptor these are the keys of the sub-creator's output under the
    joined name [outer_sub]. *)
Theorem nested_namespaces_join (outerName : string) (subs : list (Namespace V W Σ))
    (subRoot : option (StateCreator V W Σ)) set get api :
  let outer := {| name := outerName; creator := namespaced subs subRoot |} in
  let facade := getNamespacedApi outer api in
  namespaced [outer] None set get api
  = getPrefixedObject outerName
      (namespaced subs subRoot (setState facade) (getState facade) facade)
  ∧ ∀ sub, subs = [sub] → subRoot = None →
      let subFacade := getNamespacedApi sub facade in
      namespaced [outer] None set get api
      = getPrefixedObject (outerName +:+ "_" +:+ name sub)
          (creator sub (setState subFacade) (getState subFacade) subFacade).
Proof.
  intros outer facade.
  assert (namespaced [outer] None set get api
          = getPrefixedObject outerName
              (namespaced subs subRoot (setState facade) (getState facade) facade))
    as Houter.
  { unfold namespaced at 1. simpl. unfold spreadTransformedNamespaces.
    unfold spreadNamespaces. simpl. apply spread_empty_l. }
  split; [done|]. intros sub -> -> subFacade. rewrite Houter.
  unfold namespaced, spreadTransformedNamespaces, spreadNamespaces. simpl.
  rewrite spread_empty_l. apply getPrefixedObject_nested.
Qed.

(** X16. Partializing never invents state: when every partialize function
    returns a part of the namespace view it is given, the partialized object
    of a list of namespaces is a part of the state, and a namespace without
    a partialize function contributes nothing. *)
Theorem partializeNamespaces_subset (state : gmap string V) namespaces
    (getPartializeFn : Namespace V W Σ → option (gmap string V → gmap string V)) :
  (∀ ns fn, ns ∈ namespaces → getPartializeFn ns = Some fn →
            fn (toNamespace ns state) ⊆ toNamespace ns state) →
  partializeNamespaces state namespaces getPartializeFn ⊆ state
  ∧ ∀ ns, getPartializeFn ns = None →
          partializeNamespace state getPartializeFn ns = ∅.
Proof.
  intros Hpart. split.
  - apply map_subseteq_spec. intros j v.
    unfold partializeNamespaces. rewrite spreadNamespaces_merge, merge_lookup.
    intros (o & (ns & -> & Hns)%list_elem_of_fmap & Hj)%last_binding_Some.
    unfold partializeNamespace, fromNamespace in Hj.
    apply getPrefixedObject_lookup_Some in Hj as (k & -> & Hk).
    destruct (getPartializeFn ns) as [fn|] eqn:Efn; simpl in Hk; [|done].
    specialize (Hpart ns fn Hns Efn).
    rewrite map_subseteq_spec in Hpart. apply Hpart in Hk.
    unfold toNamespace in Hk. by rewrite getUnprefixedObject_lookup in Hk.
  - intros ns Hnone. unfold partializeNamespace. rewrite Hnone. simpl.
    apply getPrefixedObject_empty.
Qed.

(** X17. Partializing every namespace with the identity keeps exactly the
    keys of the state that are under the token of one of the namespaces,
    with their values. *)
Theorem partializeNamespaces_identity (state : gmap string V) namespaces j :
  partializeNamespaces state namespaces (λ _, Some id) !! j
  = if existsb (λ ns, startsWith (token (name ns)) j) namespaces
    then state !! j else None.
Proof.
  unfold partializeNamespaces. rewrite spreadNamespaces_merge, merge_lookup.
  induction namespaces as [|ns namespaces IH]; [done|].
  rewrite fmap_cons. cbn [last_binding existsb]. rewrite IH.
  unfold partializeNamespace, fromNamespace, toNamespace. cbn [default id].
  rewrite prefix_unprefix, restrict_lookup.
  destruct (existsb _ namespaces), (startsWith (token (name ns)) j); simpl;
    try done; by destruct (state !! j).
Qed.

End CombinatorShape.

Lemma namespace_reads_back_its_creation_witness :
  let user : Namespace JsVal unit (World JsVal unit) :=
    constant_namespace "user" {[ "name" := JStr "Alice"; "age" := JNum 25 ]} in
  let admin : Namespace JsVal unit (World JsVal unit) :=
    constant_namespace "admin" {[ "level" := JNum 1 ]} in
  let root : StateCreator JsVal unit (World JsVal unit) :=
    λ _ _ _, {[ "foo" := JStr "bar" ]} in
  forallb (λ ns', separated (name user) (name ns')) ([admin] ++ []) = true
  ∧ toNamespace user {[ "foo" := JStr "bar" ]} = ∅
  ∧ toNamespace user
      (namespaced ([admin] ++ user :: []) (Some root)
         (setState zustand) (getState zustand) zustand)
    = {[ "name" := JStr "Alice"; "age" := JNum 25 ]}.
Proof.
  intros user admin root. split; [reflexivity|].
  split; [by_computation|].
  apply (namespace_reads_back_its_creation [admin] user [] (Some root)
           (setState zustand) (getState zustand) zustand eq_refl).
  intros r Hr. injection Hr as <-. by_computation.
Defined.

Lemma partializeNamespaces_subset_witness :
  let user : Namespace JsVal unit (World JsVal unit) :=
    constant_namespace "user" ∅ in
  let state : gmap string JsVal :=
    {[ "user_name" := JStr "Alice"; "user_age" := JNum 25 ]} in
  let getPartializeFn : Namespace JsVal unit (World JsVal unit)
                        → option (gmap string JsVal → gmap string JsVal) :=
    λ _, Some (delete "age") in
  delete "age" (toNamespace user state) ⊆ toNamespace user state
  ∧ partializeNamespaces state [user] getPartializeFn ⊆ state.
Proof.
  intros user state getPartializeFn. split; [apply delete_subseteq|].
  apply (partializeNamespaces_subset state [user] getPartializeFn).
  intros ns fn _ Hfn. injection Hfn as <-. apply delete_subseteq.
Defined.
